(** * CircularEngine: outer sums of spherical harmonics on a circle

    A shallow embedding of [include/GeographicLib/CircularEngine.hpp]:
    the angle reduction [cossin], the constructor, the two [SetCoeff]
    overloads and the four evaluation operators, followed by the
    properties of them that the specification states.

    Conventions of the embedding
    - [Math::real] is read as an exact rational.  Every finite binary
      floating-point number is a rational and comparisons of such
      numbers are exact; arithmetic is exact here, so that rounding,
      infinities and NaN are outside the model.
    - [int] is [Z] together with the bound [INT_MAX]; an [int]
      computation that leaves the range has no defined result.
    - [std::vector<real>] is [list real]; an access outside the vector
      and a constructor that throws are [None].
    - The member function [Value] is declared in the header and defined
      elsewhere; it, the library routines [cos] and [sin] and the
      constant [Math::degree<real>()] are variables of a section. *)

From Stdlib Require Import ZArith QArith Qabs Lqa Lia Bool.
From stdpp Require Import base option list.

Local Open Scope Q_scope.

(** ** Numbers *)

(** Modelled from the spec: the typedef [Math::real] lives in
    [Constants.hpp], which is not part of the sources; the specification
    calls the type "real".  It is embedded as the exact rationals. *)
Definition real : Set := Q.

(** [x < y] on [real], as a boolean (the library has [Qle_bool] and
    [Qeq_bool] only). *)
Definition Qlt_bool (x y : real) : bool :=
  (Qnum x * QDen y <? Qnum y * QDen x)%Z.

(** The largest value of the 32-bit [int]. *)
Definition INT_MAX : Z := 2 ^ 31 - 1.

(** [i + 1] in [int]: signed overflow is undefined. *)
Definition int_succ (i : Z) : option Z :=
  if decide (i + 1 <= INT_MAX)%Z then Some (i + 1)%Z else None.

Module Math.

(** Modelled from the spec: [Math::sq] is defined in [Constants.hpp],
    which is not part of the sources; the specification gives
    [uq2 = uq²], the square. *)
Definition sq (x : real) : real := x * x.

End Math.

(** ** Vectors *)

(** [std::vector<real>(n, x)] for an [int] count [n].  The count is
    converted to the unsigned [size_type]; a negative count becomes a
    value above [max_size()] and the constructor throws
    [std::length_error]. *)
Definition vec_fill (n : Z) (x : real) : option (list real) :=
  if decide (0 <= n)%Z then Some (replicate (Z.to_nat n) x) else None.

(** [v[i] = x] for an [int] index [i].  [operator[]] does not check its
    argument: the index is converted to [size_type] (a negative one
    becomes a value above every size) and an access at or above
    [v.size()] is undefined. *)
Definition vec_set (v : list real) (i : Z) (x : real) : option (list real) :=
  if decide (0 <= i < Z.of_nat (length v))%Z
  then Some (<[Z.to_nat i := x]> v)
  else None.

(** [v[i]] read for an [int] index [i], under the same rule. *)
Definition vec_get (v : list real) (i : Z) : option real :=
  if decide (0 <= i < Z.of_nat (length v))%Z
  then v !! Z.to_nat i
  else None.

(** ** The class *)

Module SphericalEngine.

(** Modelled from the spec: [SphericalEngine::normalization] is declared
    in [SphericalEngine.hpp], which is not part of the sources; the
    specification gives the enumeration as "Full | Schmidt". *)
Inductive normalization : Set := full | schmidt.

End SphericalEngine.

(** [enum normalization], whose two enumerators take the values of the
    enumerators of [SphericalEngine]. *)
Inductive normalization : Set := full | schmidt.

(** The cast [normalization(norm)] of the constructor. *)
Definition normalization_of (n : SphericalEngine.normalization) : normalization :=
  match n with
  | SphericalEngine.full => full
  | SphericalEngine.schmidt => schmidt
  end.

(** The data members, in the order of their declaration. *)
Record CircularEngine : Set := mkCircularEngine {
  _M : Z;
  _gradp : bool;
  _norm : normalization;
  _scale : real; _a : real; _r : real; _u : real; _t : real;
  _wc : list real; _ws : list real;
  _wrc : list real; _wrs : list real;
  _wtc : list real; _wts : list real;
  _q : real; _uq : real; _uq2 : real
}.

(** The constructor.  The mem-initialisers run in the order of the
    members; the body then fills the three cached products. *)
Definition CircularEngine_new (M : Z) (gradp : bool)
    (norm : SphericalEngine.normalization)
    (scale a r u t : real) : option CircularEngine :=
  n ← int_succ M;
  wc ← vec_fill n 0;
  ws ← vec_fill n 0;
  wrc ← vec_fill (if gradp then n else 0%Z) 0;
  wrs ← vec_fill (if gradp then n else 0%Z) 0;
  wtc ← vec_fill (if gradp then n else 0%Z) 0;
  wts ← vec_fill (if gradp then n else 0%Z) 0;
  let q := a / r in
  let uq := u * q in
  let uq2 := Math.sq uq in
  Some (mkCircularEngine M gradp (normalization_of norm) scale a r u t
          wc ws wrc wrs wtc wts q uq uq2).

(** The object with its two value arrays replaced. *)
Definition with_values (e : CircularEngine) (wc ws : list real) : CircularEngine :=
  mkCircularEngine (_M e) (_gradp e) (_norm e)
    (_scale e) (_a e) (_r e) (_u e) (_t e)
    wc ws (_wrc e) (_wrs e) (_wtc e) (_wts e)
    (_q e) (_uq e) (_uq2 e).

(** The object with its four gradient arrays replaced. *)
Definition with_gradients (e : CircularEngine) (wrc wrs wtc wts : list real)
    : CircularEngine :=
  mkCircularEngine (_M e) (_gradp e) (_norm e)
    (_scale e) (_a e) (_r e) (_u e) (_t e)
    (_wc e) (_ws e) wrc wrs wtc wts
    (_q e) (_uq e) (_uq2 e).

(** [SetCoeff(m, wc, ws)]. *)
Definition SetCoeff (e : CircularEngine) (m : Z) (wc ws : real)
    : option CircularEngine :=
  wc' ← vec_set (_wc e) m wc;
  ws' ← vec_set (_ws e) m ws;
  Some (with_values e wc' ws').

(** [SetCoeff(m, wc, ws, wrc, wrs, wtc, wts)]. *)
Definition SetCoeff_grad (e : CircularEngine) (m : Z)
    (wc ws wrc wrs wtc wts : real) : option CircularEngine :=
  wc' ← vec_set (_wc e) m wc;
  ws' ← vec_set (_ws e) m ws;
  let e1 := with_values e wc' ws' in
  if _gradp e1 then
    wrc' ← vec_set (_wrc e1) m wrc;
    wrs' ← vec_set (_wrs e1) m wrs;
    wtc' ← vec_set (_wtc e1) m wtc;
    wts' ← vec_set (_wts e1) m wts;
    Some (with_gradients e1 wrc' wrs' wtc' wts')
  else Some e1.

(** The objects of the loading phase: a freshly constructed one, and
    what a call of either [SetCoeff] overload makes of one. *)
Inductive loading : CircularEngine -> Prop :=
| loading_new M gradp norm scale a r u t e :
    CircularEngine_new M gradp norm scale a r u t = Some e ->
    loading e
| loading_SetCoeff e m wc ws e' :
    loading e ->
    SetCoeff e m wc ws = Some e' ->
    loading e'
| loading_SetCoeff_grad e m wc ws wrc wrs wtc wts e' :
    loading e ->
    SetCoeff_grad e m wc ws wrc wrs wtc wts = Some e' ->
    loading e'.

(** The sizes the constructor gives the six arrays. *)
Definition sized (e : CircularEngine) : Prop :=
  (0 <= _M e + 1 <= INT_MAX)%Z /\
  length (_wc e) = Z.to_nat (_M e + 1) /\
  length (_ws e) = Z.to_nat (_M e + 1) /\
  let g := if _gradp e then Z.to_nat (_M e + 1) else 0%nat in
  length (_wrc e) = g /\ length (_wrs e) = g /\
  length (_wtc e) = g /\ length (_wts e) = g.

(** Every member but the two value arrays is the same in [e] and [e']. *)
Definition same_but_values (e e' : CircularEngine) : Prop :=
  _M e' = _M e /\ _gradp e' = _gradp e /\ _norm e' = _norm e /\
  _scale e' = _scale e /\ _a e' = _a e /\ _r e' = _r e /\
  _u e' = _u e /\ _t e' = _t e /\
  _wrc e' = _wrc e /\ _wrs e' = _wrs e /\
  _wtc e' = _wtc e /\ _wts e' = _wts e /\
  _q e' = _q e /\ _uq e' = _uq e /\ _uq2 e' = _uq2 e.

(** ** Angle reduction *)

(** The first statement of [cossin]: one conditional shift by a turn. *)
Definition cossin_wrap (x : real) : real :=
  if Qle_bool 180 x then x - 360
  else if Qlt_bool x (-180) then x + 360
  else x.

(** The half-open interval [[-180, 180)]. *)
Definition reduced (x : real) : Prop := -180 <= x /\ x < 180.

(** Stand-ins for the section's variables, used where a statement is
    instantiated at concrete numbers: truncated series for the two
    library routines and [355/113] for the circle constant. *)
Definition degree_approx : real := 355 / (113 * 180).
Definition cos_approx (x : real) : real := 1 - x * x / 2.
Definition sin_approx (x : real) : real := x - x * x * x / 6.

(** A stand-in for [Value]: the order-0 term of the sum, no gradient. *)
Definition Value_approx (e : CircularEngine) (gradp : bool) (cl sl : real)
    : option (real * (real * real * real)) :=
  w ← vec_get (_wc e) 0;
  Some (_scale e * w, (0, 0, 0)).

(** The object that [CircularEngine(2, false, full, 1, 2, 4, 3/5, 4/5)]
    constructs. *)
Definition sample_engine : CircularEngine :=
  mkCircularEngine 2 false full 1 2 4 (3 # 5) (4 # 5)
    [0; 0; 0] [0; 0; 0] [] [] [] []
    (2 / 4) ((3 # 5) * (2 / 4)) (Math.sq ((3 # 5) * (2 / 4))).

(** The object that [CircularEngine(2, true, schmidt, 1, 2, 4, 3/5, 4/5)]
    constructs. *)
Definition sample_engine_grad : CircularEngine :=
  mkCircularEngine 2 true schmidt 1 2 4 (3 # 5) (4 # 5)
    [0; 0; 0] [0; 0; 0] [0; 0; 0] [0; 0; 0] [0; 0; 0] [0; 0; 0]
    (2 / 4) ((3 # 5) * (2 / 4)) (Math.sq ((3 # 5) * (2 / 4))).

(** ** Sequences of loading calls *)

(** A call of one of the two [SetCoeff] overloads, with its arguments. *)
Inductive setcall : Set :=
| set_values (m : Z) (wc ws : real)
| set_all (m : Z) (wc ws wrc wrs wtc wts : real).

(** The order a call addresses. *)
Definition call_order (c : setcall) : Z :=
  match c with
  | set_values m _ _ => m
  | set_all m _ _ _ _ _ _ => m
  end.

(** The call made on the object [e]. *)
Definition apply_call (e : CircularEngine) (c : setcall)
    : option CircularEngine :=
  match c with
  | set_values m wc ws => SetCoeff e m wc ws
  | set_all m wc ws wrc wrs wtc wts =>
      SetCoeff_grad e m wc ws wrc wrs wtc wts
  end.

(** The calls of [cs] made one after the other, first to last. *)
Fixpoint load (e : CircularEngine) (cs : list setcall)
    : option CircularEngine :=
  match cs with
  | [] => Some e
  | c :: cs' => e' ← apply_call e c; load e' cs'
  end.

(** The six coefficient arrays, by name. *)
Inductive array : Set := in_wc | in_ws | in_wrc | in_wrs | in_wtc | in_wts.

Definition array_of (a : array) (e : CircularEngine) : list real :=
  match a with
  | in_wc => _wc e | in_ws => _ws e
  | in_wrc => _wrc e | in_wrs => _wrs e
  | in_wtc => _wtc e | in_wts => _wts e
  end.

(** The two arrays that hold the coefficients of the value. *)
Definition value_array (a : array) : bool :=
  match a with in_wc | in_ws => true | _ => false end.

(** The argument of the call [c] that goes to the array [a] of an object
    whose gradient flag is [gradp], if one does. *)
Definition written (gradp : bool) (a : array) (c : setcall) : option real :=
  match c with
  | set_values _ wc ws =>
      match a with in_wc => Some wc | in_ws => Some ws | _ => None end
  | set_all _ wc ws wrc wrs wtc wts =>
      match a with
      | in_wc => Some wc | in_ws => Some ws
      | in_wrc => if gradp then Some wrc else None
      | in_wrs => if gradp then Some wrs else None
      | in_wtc => if gradp then Some wtc else None
      | in_wts => if gradp then Some wts else None
      end
  end.

(** The argument that the last call of [cs] at the order [j] sends to the
    array [a], and [d] when no call of [cs] sends one there. *)
Fixpoint last_written (gradp : bool) (a : array) (cs : list setcall)
    (j : Z) (d : real) : real :=
  match cs with
  | [] => d
  | c :: cs' =>
      last_written gradp a cs' j
        (if decide (call_order c = j) then default d (written gradp a c)
         else d)
  end.

(** The object that the call [c] leaves when every access of it is
    inside its array. *)
Definition stored (e : CircularEngine) (c : setcall) : CircularEngine :=
  match c with
  | set_values m wc ws =>
      with_values e (<[Z.to_nat m := wc]> (_wc e))
                    (<[Z.to_nat m := ws]> (_ws e))
  | set_all m wc ws wrc wrs wtc wts =>
      let e1 := with_values e (<[Z.to_nat m := wc]> (_wc e))
                              (<[Z.to_nat m := ws]> (_ws e)) in
      if _gradp e
      then with_gradients e1
             (<[Z.to_nat m := wrc]> (_wrc e)) (<[Z.to_nat m := wrs]> (_wrs e))
             (<[Z.to_nat m := wtc]> (_wtc e)) (<[Z.to_nat m := wts]> (_wts e))
      else e1
  end.

(** The members that are no array are the same in [e] and [e']. *)
Definition same_scalars (e e' : CircularEngine) : Prop :=
  _M e' = _M e /\ _gradp e' = _gradp e /\ _norm e' = _norm e /\
  _scale e' = _scale e /\ _a e' = _a e /\ _r e' = _r e /\
  _u e' = _u e /\ _t e' = _t e /\
  _q e' = _q e /\ _uq e' = _uq e /\ _uq2 e' = _uq2 e.

(** The three cached members are the products of the constructor. *)
Definition cached (e : CircularEngine) : Prop :=
  _q e = _a e / _r e /\ _uq e = _u e * _q e /\ _uq2 e = Math.sq (_uq e).

Section Evaluation.

(** [Math::degree<real>()], the number of radians in a degree
    ([Constants.hpp]), and the routines [cos] and [sin] of the C++
    library. *)
Variable degree : real.
Variables cos sin : real -> real.

(** Modelled from the spec: the body of [Value] is not part of the
    sources (the header only declares it, as a [const] member).  The
    specification gives it as the primitive
    [Evaluate(computeGradient, cosLon, sinLon) -> (value, gradX, gradY,
    gradZ)] of the frozen object: the three reference parameters are
    results.  [None] is a call with no defined result. *)
Variable Value :
  CircularEngine -> bool -> real -> real -> option (real * (real * real * real)).

(** [cossin(x, cosx, sinx)]; the two reference parameters are the
    components of the result. *)
Definition cossin (x : real) : real * real :=
  let x := cossin_wrap x in
  let xi := x * degree in
  let cosx := if Qeq_bool (Qabs x) 90 then 0 else cos xi in
  let sinx := if Qeq_bool x (-180) then 0 else sin xi in
  (cosx, sinx).

(** [operator()(coslon, sinlon)]: the three out-parameters of [Value]
    are bound to a local that is dropped. *)
Definition op_cossin (e : CircularEngine) (coslon sinlon : real)
    : option real :=
  fst <$> Value e false coslon sinlon.

(** [operator()(lon)]. *)
Definition op_lon (e : CircularEngine) (lon : real) : option real :=
  let '(coslon, sinlon) := cossin lon in
  op_cossin e coslon sinlon.

(** [operator()(coslon, sinlon, gradx, grady, gradz)]. *)
Definition op_cossin_grad (e : CircularEngine) (coslon sinlon : real)
    : option (real * (real * real * real)) :=
  Value e true coslon sinlon.

(** [operator()(lon, gradx, grady, gradz)]. *)
Definition op_lon_grad (e : CircularEngine) (lon : real)
    : option (real * (real * real * real)) :=
  let '(coslon, sinlon) := cossin lon in
  op_cossin_grad e coslon sinlon.

(** ** Properties of the angle reduction *)

Lemma Qlt_bool_iff (x y : real) : Qlt_bool x y = true <-> x < y.
Proof. unfold Qlt_bool, Qlt. apply Z.ltb_lt. Qed.

Lemma Qle_bool_false_iff (x y : real) : Qle_bool x y = false <-> y < x.
Proof.
  rewrite <- not_true_iff_false, Qle_bool_iff. split.
  - apply Qnot_le_lt.
  - apply Qlt_not_le.
Qed.

Lemma Qlt_bool_false_iff (x y : real) : Qlt_bool x y = false <-> y <= x.
Proof.
  rewrite <- not_true_iff_false, Qlt_bool_iff. split.
  - apply Qnot_lt_le.
  - apply Qle_not_lt.
Qed.

(** Case analysis on the two tests of [cossin_wrap], each branch with
    the order facts that select it. *)
Ltac wrap_cases x :=
  unfold cossin_wrap;
  let H1 := fresh "Hge" in
  let H2 := fresh "Hlt" in
  destruct (Qle_bool 180 x) eqn:H1;
  [ apply Qle_bool_iff in H1
  | apply Qle_bool_false_iff in H1;
    destruct (Qlt_bool x (-180)) eqn:H2;
    [ apply Qlt_bool_iff in H2 | apply Qlt_bool_false_iff in H2 ] ].

Lemma cossin_wrap_ge (x : real) : 180 <= x -> cossin_wrap x = x - 360.
Proof. intros H. wrap_cases x; [reflexivity | lra | lra]. Qed.

Lemma cossin_wrap_lt (x : real) : x < -180 -> cossin_wrap x = x + 360.
Proof. intros H. wrap_cases x; [lra | reflexivity | lra]. Qed.

Lemma cossin_wrap_id (x : real) : reduced x -> cossin_wrap x = x.
Proof. intros [Hlo Hhi]. wrap_cases x; [lra | lra | reflexivity]. Qed.

Lemma cossin_wrap_reduced_iff (x : real) :
  reduced (cossin_wrap x) <-> -540 <= x /\ x < 540.
Proof. unfold reduced. wrap_cases x; lra. Qed.

(** The wrap step at [540]: one turn is taken off and the result, [180],
    is not in [[-180, 180)]. *)
Lemma cossin_wrap_540 :
  cossin_wrap 540 = 180 /\ ~ reduced (cossin_wrap 540).
Proof.
  split; [reflexivity |].
  change (cossin_wrap 540) with (180 : real). unfold reduced. lra.
Qed.

(** C1, as amended.  For every longitude [x] the wrap step subtracts
    360 when [x >= 180], adds 360 when [x < -180] and leaves [x] as it is
    otherwise; the result lies in [[-180, 180)] exactly when
    [-540 <= x < 540]. *)
Theorem cossin_wrap_range (x : real) :
  (180 <= x -> cossin_wrap x = x - 360) /\
  (x < -180 -> cossin_wrap x = x + 360) /\
  (reduced x -> cossin_wrap x = x) /\
  (reduced (cossin_wrap x) <-> -540 <= x /\ x < 540).
Proof.
  split; [apply cossin_wrap_ge |].
  split; [apply cossin_wrap_lt |].
  split; [apply cossin_wrap_id |].
  apply cossin_wrap_reduced_iff.
Qed.

Lemma cossin_fst (x : real) :
  fst (cossin x) =
  if Qeq_bool (Qabs (cossin_wrap x)) 90 then 0
  else cos (cossin_wrap x * degree).
Proof. reflexivity. Qed.

Lemma cossin_snd (x : real) :
  snd (cossin x) =
  if Qeq_bool (cossin_wrap x) (-180) then 0
  else sin (cossin_wrap x * degree).
Proof. reflexivity. Qed.

(** C2.  With [w] the wrapped angle of [x]: the cosine that [cossin]
    returns is exactly 0 when [|w|] is 90, and the sine is exactly 0 when
    [w] is -180; a component that is not forced is the library routine
    at [w] in radians, so that away from the three angles the pair is
    the library's cosine and sine. *)
Theorem cossin_boundary_exact (x : real) :
  let w := cossin_wrap x in
  (Qabs w == 90 -> fst (cossin x) = 0) /\
  (w == -180 -> snd (cossin x) = 0) /\
  (~ Qabs w == 90 -> fst (cossin x) = cos (w * degree)) /\
  (~ w == -180 -> snd (cossin x) = sin (w * degree)) /\
  (~ Qabs w == 90 -> ~ w == -180 ->
   cossin x = (cos (w * degree), sin (w * degree))).
Proof.
  intros w.
  assert (Hc1 : Qabs w == 90 -> fst (cossin x) = 0).
  { intros H. rewrite cossin_fst. fold w.
    apply Qeq_bool_iff in H. now rewrite H. }
  assert (Hs1 : w == -180 -> snd (cossin x) = 0).
  { intros H. rewrite cossin_snd. fold w.
    apply Qeq_bool_iff in H. now rewrite H. }
  assert (Hc2 : ~ Qabs w == 90 -> fst (cossin x) = cos (w * degree)).
  { intros H. rewrite cossin_fst. fold w.
    destruct (Qeq_bool (Qabs w) 90) eqn:E; [| reflexivity].
    apply Qeq_bool_iff in E. contradiction. }
  assert (Hs2 : ~ w == -180 -> snd (cossin x) = sin (w * degree)).
  { intros H. rewrite cossin_snd. fold w.
    destruct (Qeq_bool w (-180)) eqn:E; [| reflexivity].
    apply Qeq_bool_iff in E. contradiction. }
  split; [exact Hc1 |]. split; [exact Hs1 |].
  split; [exact Hc2 |]. split; [exact Hs2 |].
  intros H1 H2. rewrite (surjective_pairing (cossin x)).
  now rewrite Hc2, Hs2.
Qed.

(** C3.  The longitudes 180 and -180 wrap to the same representative,
    -180, and [cossin] returns the same pair for both. *)
Theorem cossin_180_same_as_neg180 :
  cossin_wrap 180 = -180 /\ cossin_wrap (-180) = -180 /\
  cossin 180 = cossin (-180).
Proof.
  assert (H1 : cossin_wrap 180 = -180) by reflexivity.
  assert (H2 : cossin_wrap (-180) = -180) by reflexivity.
  split; [exact H1 |]. split; [exact H2 |].
  unfold cossin. now rewrite H1, H2.
Qed.

(** C10.  A longitude already in [[-180, 180)] is left as it is by the
    wrap step; hence wrapping twice is wrapping once there, and reducing
    the representative gives the pair that reducing [x] gives. *)
Theorem cossin_wrap_fixes_reduced (x : real) :
  reduced x ->
  cossin_wrap x = x /\
  cossin_wrap (cossin_wrap x) = cossin_wrap x /\
  cossin (cossin_wrap x) = cossin x.
Proof.
  intros H. pose proof (cossin_wrap_id x H) as E.
  now rewrite !E.
Qed.

(** ** Properties of the evaluation operators *)

(** C4.  The operator that takes degrees is the operator that takes the
    cosine and the sine, applied to the pair that [cossin] returns; the
    same holds of the two gradient forms, whose results carry the three
    gradient out-values. *)
Theorem op_lon_is_cossin_then_op (e : CircularEngine) (lon : real) :
  op_lon e lon = op_cossin e (fst (cossin lon)) (snd (cossin lon)) /\
  op_lon_grad e lon =
    op_cossin_grad e (fst (cossin lon)) (snd (cossin lon)).
Proof.
  unfold op_lon, op_lon_grad.
  destruct (cossin lon) as [coslon sinlon]. simpl. split; reflexivity.
Qed.

(** ** Longitudes a turn apart, and the angles with a forced zero *)

Lemma cossin_minus_turn (x : real) :
  180 <= x -> x < 540 -> cossin x = cossin (x - 360).
Proof.
  intros Hlo Hhi. unfold cossin.
  rewrite (cossin_wrap_ge x Hlo), (cossin_wrap_id (x - 360)); [reflexivity |].
  unfold reduced. lra.
Qed.

Lemma cossin_plus_turn (x : real) :
  -540 <= x -> x < -180 -> cossin x = cossin (x + 360).
Proof.
  intros Hlo Hhi. unfold cossin.
  rewrite (cossin_wrap_lt x Hhi), (cossin_wrap_id (x + 360)); [reflexivity |].
  unfold reduced. lra.
Qed.

(** X1.  A longitude in [[180, 540)] and the longitude one turn below
    it, as the code computes it, give the same pair; so do a longitude
    in [[-540, -180)] and the one a turn above it. *)
Theorem cossin_turn_apart (x : real) :
  (180 <= x /\ x < 540 -> cossin x = cossin (x - 360)) /\
  (-540 <= x /\ x < -180 -> cossin x = cossin (x + 360)).
Proof.
  split; intros [Hlo Hhi].
  - now apply cossin_minus_turn.
  - now apply cossin_plus_turn.
Qed.

(** X2.  Wrapping twice.  On [[-540, 540)] the second wrap changes
    nothing.  On [[540, 900)] and on [[-900, -540)] the first wrap leaves
    the angle outside [[-180, 180)] and the second takes a further turn
    off, which brings it inside. *)
Theorem cossin_wrap_twice (x : real) :
  (-540 <= x /\ x < 540 ->
   cossin_wrap (cossin_wrap x) = cossin_wrap x) /\
  (540 <= x /\ x < 900 ->
   cossin_wrap (cossin_wrap x) = x - 360 - 360 /\
   ~ reduced (cossin_wrap x) /\ reduced (cossin_wrap (cossin_wrap x))) /\
  (-900 <= x /\ x < -540 ->
   cossin_wrap (cossin_wrap x) = x + 360 + 360 /\
   ~ reduced (cossin_wrap x) /\ reduced (cossin_wrap (cossin_wrap x))).
Proof.
  split; [| split].
  - intros H. apply cossin_wrap_id. now apply cossin_wrap_reduced_iff.
  - intros [Hlo Hhi].
    rewrite (cossin_wrap_ge x) by lra.
    rewrite (cossin_wrap_ge (x - 360)) by lra.
    unfold reduced. split; [reflexivity |]. split; lra.
  - intros [Hlo Hhi].
    rewrite (cossin_wrap_lt x) by lra.
    rewrite (cossin_wrap_lt (x + 360)) by lra.
    unfold reduced. split; [reflexivity |]. split; lra.
Qed.

(** X3.  The two operators that take degrees return for a longitude in
    [[180, 540)] what they return for the longitude a turn below it, and
    for one in [[-540, -180)] what they return for the one a turn above
    it, gradient out-values included. *)
Theorem op_lon_turn_apart (e : CircularEngine) (x : real) :
  (180 <= x /\ x < 540 ->
   op_lon e x = op_lon e (x - 360) /\
   op_lon_grad e x = op_lon_grad e (x - 360)) /\
  (-540 <= x /\ x < -180 ->
   op_lon e x = op_lon e (x + 360) /\
   op_lon_grad e x = op_lon_grad e (x + 360)).
Proof.
  unfold op_lon, op_lon_grad. split; intros [Hlo Hhi].
  - now rewrite (cossin_minus_turn x Hlo Hhi).
  - now rewrite (cossin_plus_turn x Hlo Hhi).
Qed.

(** The longitudes whose wrapped angle is a quarter turn from 0. *)
Lemma cossin_wrap_quarter (x : real) :
  Qabs (cossin_wrap x) == 90 <->
  x == 90 \/ x == -90 \/ x == 270 \/ x == -270 \/ x == 450 \/ x == -450.
Proof.
  assert (A : forall y : real, Qabs y == 90 <-> y == 90 \/ y == -90).
  { intros y. destruct (Qlt_le_dec y 0) as [Hn | Hp].
    - rewrite (Qabs_neg y) by lra. lra.
    - rewrite (Qabs_pos y) by lra. lra. }
  rewrite A. wrap_cases x; lra.
Qed.

(** The longitudes whose wrapped angle is -180. *)
Lemma cossin_wrap_half (x : real) :
  cossin_wrap x == -180 <-> x == -180 \/ x == 180 \/ x == -540.
Proof. wrap_cases x; lra. Qed.

End Evaluation.

(** X4.  The cosine that [cossin] returns is 0 whatever the library
    routines return exactly at the six longitudes 90, -90, 270, -270, 450
    and -450, and the sine exactly at -180, 180 and -540: at 540, which
    wraps to 180, the sine is the library's. *)
Theorem cossin_forced_zero (degree x : real) :
  ((forall cos sin : real -> real, fst (cossin degree cos sin x) = 0) <->
   x == 90 \/ x == -90 \/ x == 270 \/ x == -270 \/ x == 450 \/ x == -450) /\
  ((forall cos sin : real -> real, snd (cossin degree cos sin x) = 0) <->
   x == -180 \/ x == 180 \/ x == -540).
Proof.
  split.
  - rewrite <- cossin_wrap_quarter, <- Qeq_bool_iff. split.
    + intros H. specialize (H (fun _ => 1) (fun _ => 1)).
      rewrite cossin_fst in H.
      destruct (Qeq_bool (Qabs (cossin_wrap x)) 90); [reflexivity |].
      discriminate H.
    + intros H cos sin. rewrite cossin_fst. now rewrite H.
  - rewrite <- cossin_wrap_half, <- Qeq_bool_iff. split.
    + intros H. specialize (H (fun _ => 1) (fun _ => 1)).
      rewrite cossin_snd in H.
      destruct (Qeq_bool (cossin_wrap x) (-180)); [reflexivity |].
      discriminate H.
    + intros H cos sin. rewrite cossin_snd. now rewrite H.
Qed.

(** ** Properties of the loading phase *)

Lemma vec_fill_Some (n : Z) (x : real) :
  (0 <= n)%Z -> vec_fill n x = Some (replicate (Z.to_nat n) x).
Proof. intros H. unfold vec_fill. now rewrite decide_True. Qed.

Lemma vec_fill_inv (n : Z) (x : real) (v : list real) :
  vec_fill n x = Some v -> (0 <= n)%Z /\ v = replicate (Z.to_nat n) x.
Proof. unfold vec_fill. case_decide; intros [= <-]; auto. Qed.

Lemma vec_set_Some (v : list real) (i : Z) (x : real) :
  (0 <= i < Z.of_nat (length v))%Z ->
  vec_set v i x = Some (<[Z.to_nat i := x]> v).
Proof. intros H. unfold vec_set. now rewrite decide_True. Qed.

Lemma vec_set_inv (v : list real) (i : Z) (x : real) (v' : list real) :
  vec_set v i x = Some v' ->
  (0 <= i < Z.of_nat (length v))%Z /\ v' = <[Z.to_nat i := x]> v.
Proof. unfold vec_set. case_decide; intros [= <-]; auto. Qed.

Lemma vec_set_length (v : list real) (i : Z) (x : real) (v' : list real) :
  vec_set v i x = Some v' -> length v' = length v.
Proof. intros [_ ->]%vec_set_inv. apply length_insert. Qed.

Lemma int_succ_inv (i n : Z) :
  int_succ i = Some n -> n = (i + 1)%Z /\ (i + 1 <= INT_MAX)%Z.
Proof. unfold int_succ. case_decide; intros [= <-]; auto. Qed.

(** The object the constructor builds when it returns. *)
Lemma CircularEngine_new_Some (M : Z) (gradp : bool)
    (norm : SphericalEngine.normalization) (scale a r u t : real) :
  (0 <= M + 1 <= INT_MAX)%Z ->
  let n := Z.to_nat (M + 1) in
  let g := if gradp then n else 0%nat in
  CircularEngine_new M gradp norm scale a r u t =
  Some (mkCircularEngine M gradp (normalization_of norm) scale a r u t
          (replicate n 0) (replicate n 0)
          (replicate g 0) (replicate g 0) (replicate g 0) (replicate g 0)
          (a / r) (u * (a / r)) (Math.sq (u * (a / r)))).
Proof.
  intros [Hlo Hhi] n g. unfold CircularEngine_new, int_succ.
  rewrite decide_True by exact Hhi. simpl.
  rewrite (vec_fill_Some (M + 1)) by exact Hlo. simpl.
  assert (Hg : vec_fill (if gradp then (M + 1)%Z else 0%Z) 0
               = Some (replicate g 0)).
  { subst g n. destruct gradp; apply vec_fill_Some; lia. }
  rewrite Hg. reflexivity.
Qed.

Lemma CircularEngine_new_domain (M : Z) (gradp : bool)
    (norm : SphericalEngine.normalization) (scale a r u t : real)
    (e : CircularEngine) :
  CircularEngine_new M gradp norm scale a r u t = Some e ->
  (0 <= M + 1 <= INT_MAX)%Z.
Proof.
  unfold CircularEngine_new. intros H.
  destruct (int_succ M) as [n |] eqn:Hn; [| discriminate].
  apply int_succ_inv in Hn as [-> Hhi]. simpl in H.
  destruct (vec_fill (M + 1) 0) as [wc |] eqn:Hwc; [| discriminate].
  apply vec_fill_inv in Hwc as [Hlo _]. split; assumption.
Qed.

Lemma CircularEngine_new_sized (M : Z) (gradp : bool)
    (norm : SphericalEngine.normalization) (scale a r u t : real)
    (e : CircularEngine) :
  CircularEngine_new M gradp norm scale a r u t = Some e -> sized e.
Proof.
  intros H. pose proof (CircularEngine_new_domain _ _ _ _ _ _ _ _ _ H) as Hd.
  rewrite (CircularEngine_new_Some M gradp norm scale a r u t Hd) in H.
  injection H as <-. unfold sized. simpl.
  rewrite !length_replicate. destruct gradp; auto 10.
Qed.

Lemma SetCoeff_sized (e : CircularEngine) (m : Z) (wc ws : real)
    (e' : CircularEngine) :
  SetCoeff e m wc ws = Some e' -> sized e -> sized e'.
Proof.
  unfold SetCoeff. intros H.
  destruct (vec_set (_wc e) m wc) as [wc' |] eqn:Hwc; [| discriminate].
  destruct (vec_set (_ws e) m ws) as [ws' |] eqn:Hws; [| discriminate].
  injection H as <-. unfold sized. simpl.
  rewrite (vec_set_length _ _ _ _ Hwc), (vec_set_length _ _ _ _ Hws).
  trivial.
Qed.

Lemma SetCoeff_grad_sized (e : CircularEngine) (m : Z)
    (wc ws wrc wrs wtc wts : real) (e' : CircularEngine) :
  SetCoeff_grad e m wc ws wrc wrs wtc wts = Some e' -> sized e -> sized e'.
Proof.
  unfold SetCoeff_grad. intros H.
  destruct (vec_set (_wc e) m wc) as [wc' |] eqn:Hwc; [| discriminate].
  destruct (vec_set (_ws e) m ws) as [ws' |] eqn:Hws; [| discriminate].
  simpl in H. destruct (_gradp e) eqn:Hg.
  - destruct (vec_set (_wrc e) m wrc) as [wrc' |] eqn:Hrc; [| discriminate].
    destruct (vec_set (_wrs e) m wrs) as [wrs' |] eqn:Hrs; [| discriminate].
    destruct (vec_set (_wtc e) m wtc) as [wtc' |] eqn:Htc; [| discriminate].
    destruct (vec_set (_wts e) m wts) as [wts' |] eqn:Hts; [| discriminate].
    injection H as <-. unfold sized. simpl. rewrite Hg.
    rewrite (vec_set_length _ _ _ _ Hwc), (vec_set_length _ _ _ _ Hws),
      (vec_set_length _ _ _ _ Hrc), (vec_set_length _ _ _ _ Hrs),
      (vec_set_length _ _ _ _ Htc), (vec_set_length _ _ _ _ Hts).
    trivial.
  - injection H as <-. unfold sized. simpl. rewrite Hg.
    rewrite (vec_set_length _ _ _ _ Hwc), (vec_set_length _ _ _ _ Hws).
    trivial.
Qed.

(** The sizes are an invariant of the loading phase. *)
Lemma loading_sized (e : CircularEngine) : loading e -> sized e.
Proof.
  induction 1 as [M gradp norm scale a r u t e H
                 | e m wc ws e' _ IH H
                 | e m wc ws wrc wrs wtc wts e' _ IH H].
  - exact (CircularEngine_new_sized _ _ _ _ _ _ _ _ _ H).
  - exact (SetCoeff_sized _ _ _ _ _ H IH).
  - exact (SetCoeff_grad_sized _ _ _ _ _ _ _ _ _ H IH).
Qed.

(** C5.  A construction call with parameters
    [(M, gradp, norm, scale, a, r, u, t)] returns an object whenever
    [M + 1] is a count an [int] holds (every [M >= 0] below [INT_MAX]),
    and in the object it returns: [_wc] and [_ws] have [M + 1] elements,
    all zero; each of the four gradient arrays has [M + 1] zero elements
    when [gradp] is true and no element when it is false; and
    [_q = a / r], [_uq = u * _q], [_uq2 = _uq ^ 2]. *)
Theorem CircularEngine_new_zero_filled (M : Z) (gradp : bool)
    (norm : SphericalEngine.normalization) (scale a r u t : real) :
  ((0 <= M + 1 <= INT_MAX)%Z ->
   is_Some (CircularEngine_new M gradp norm scale a r u t)) /\
  (forall e : CircularEngine,
     CircularEngine_new M gradp norm scale a r u t = Some e ->
     let n := Z.to_nat (M + 1) in
     let g := if gradp then n else 0%nat in
     Z.of_nat n = (M + 1)%Z /\
     (length (_wc e) = n /\ _wc e = replicate n 0) /\
     (length (_ws e) = n /\ _ws e = replicate n 0) /\
     (length (_wrc e) = g /\ _wrc e = replicate g 0) /\
     (length (_wrs e) = g /\ _wrs e = replicate g 0) /\
     (length (_wtc e) = g /\ _wtc e = replicate g 0) /\
     (length (_wts e) = g /\ _wts e = replicate g 0) /\
     _q e = a / r /\ _uq e = u * _q e /\ _uq2 e = _uq e ^ 2).
Proof.
  split.
  - intros Hd. rewrite (CircularEngine_new_Some _ _ _ _ _ _ _ _ Hd). eauto.
  - intros e H n g.
    pose proof (CircularEngine_new_domain _ _ _ _ _ _ _ _ _ H) as Hd.
    rewrite (CircularEngine_new_Some M gradp norm scale a r u t Hd) in H.
    injection H as <-. simpl. fold n. fold g.
    rewrite !length_replicate.
    split; [subst n; lia |].
    repeat split.
Qed.

(** The value part of a [SetCoeff] call on an object with its arrays
    sized, for an order within them. *)
Lemma sized_value_index (e : CircularEngine) (m : Z) :
  sized e -> (0 <= m <= _M e)%Z ->
  (0 <= m < Z.of_nat (length (_wc e)))%Z /\
  (0 <= m < Z.of_nat (length (_ws e)))%Z.
Proof. intros (HM & Hc & Hs & _) Hm. rewrite Hc, Hs. lia. Qed.

Lemma sized_gradient_index (e : CircularEngine) (m : Z) :
  sized e -> (0 <= m <= _M e)%Z -> _gradp e = true ->
  (0 <= m < Z.of_nat (length (_wrc e)))%Z /\
  (0 <= m < Z.of_nat (length (_wrs e)))%Z /\
  (0 <= m < Z.of_nat (length (_wtc e)))%Z /\
  (0 <= m < Z.of_nat (length (_wts e)))%Z.
Proof.
  intros (HM & _ & _ & Hg) Hm Hp. rewrite Hp in Hg. simpl in Hg.
  destruct Hg as (-> & -> & -> & ->). lia.
Qed.

Lemma SetCoeff_Some (e : CircularEngine) (m : Z) (wc ws : real) :
  sized e -> (0 <= m <= _M e)%Z ->
  SetCoeff e m wc ws =
  Some (with_values e (<[Z.to_nat m := wc]> (_wc e))
                      (<[Z.to_nat m := ws]> (_ws e))).
Proof.
  intros Hs Hm. destruct (sized_value_index e m Hs Hm) as [Hc Hs'].
  unfold SetCoeff. rewrite (vec_set_Some _ _ _ Hc). simpl.
  rewrite (vec_set_Some _ _ _ Hs'). reflexivity.
Qed.

Lemma SetCoeff_grad_Some (e : CircularEngine) (m : Z)
    (wc ws wrc wrs wtc wts : real) :
  sized e -> (0 <= m <= _M e)%Z ->
  SetCoeff_grad e m wc ws wrc wrs wtc wts =
  Some (let e1 := with_values e (<[Z.to_nat m := wc]> (_wc e))
                                (<[Z.to_nat m := ws]> (_ws e)) in
        if _gradp e
        then with_gradients e1
               (<[Z.to_nat m := wrc]> (_wrc e)) (<[Z.to_nat m := wrs]> (_wrs e))
               (<[Z.to_nat m := wtc]> (_wtc e)) (<[Z.to_nat m := wts]> (_wts e))
        else e1).
Proof.
  intros Hs Hm. destruct (sized_value_index e m Hs Hm) as [Hc Hs'].
  unfold SetCoeff_grad. rewrite (vec_set_Some _ _ _ Hc). simpl.
  rewrite (vec_set_Some _ _ _ Hs'). simpl.
  destruct (_gradp e) eqn:Hp; [| reflexivity].
  destruct (sized_gradient_index e m Hs Hm Hp) as (H1 & H2 & H3 & H4).
  rewrite (vec_set_Some _ _ _ H1). simpl.
  rewrite (vec_set_Some _ _ _ H2). simpl.
  rewrite (vec_set_Some _ _ _ H3). simpl.
  rewrite (vec_set_Some _ _ _ H4). reflexivity.
Qed.

(** C6.  A call of the seven-argument [SetCoeff] with [0 <= m <= _M] on
    an object of the loading phase returns, and in the object it leaves:
    the two value coefficients are at index [m] whatever [_gradp] is;
    the four derivative coefficients are at index [m] when [_gradp] is
    true; and when [_gradp] is false the gradient arrays and every other
    member but the two value arrays are as they were.  Nothing but the
    element at [m] changes in an array that is written. *)
Theorem SetCoeff_grad_stores (e : CircularEngine) (m : Z)
    (wc ws wrc wrs wtc wts : real) :
  loading e -> (0 <= m <= _M e)%Z ->
  exists e' : CircularEngine,
    SetCoeff_grad e m wc ws wrc wrs wtc wts = Some e' /\
    (_wc e' !! Z.to_nat m = Some wc /\ _wc e' = <[Z.to_nat m := wc]> (_wc e)) /\
    (_ws e' !! Z.to_nat m = Some ws /\ _ws e' = <[Z.to_nat m := ws]> (_ws e)) /\
    (_gradp e = true ->
     (_wrc e' !! Z.to_nat m = Some wrc /\
      _wrc e' = <[Z.to_nat m := wrc]> (_wrc e)) /\
     (_wrs e' !! Z.to_nat m = Some wrs /\
      _wrs e' = <[Z.to_nat m := wrs]> (_wrs e)) /\
     (_wtc e' !! Z.to_nat m = Some wtc /\
      _wtc e' = <[Z.to_nat m := wtc]> (_wtc e)) /\
     (_wts e' !! Z.to_nat m = Some wts /\
      _wts e' = <[Z.to_nat m := wts]> (_wts e))) /\
    (_gradp e = false -> same_but_values e e').
Proof.
  intros Hl Hm. pose proof (loading_sized e Hl) as Hs.
  destruct (sized_value_index e m Hs Hm) as [Hc Hs'].
  eexists. split; [apply (SetCoeff_grad_Some _ _ _ _ _ _ _ _ Hs Hm) |].
  destruct (_gradp e) eqn:Hp; simpl.
  - destruct (sized_gradient_index e m Hs Hm Hp) as (H1 & H2 & H3 & H4).
    repeat (split; [split; [apply list_lookup_insert_eq; lia | reflexivity] |]).
    split; [| discriminate]. intros _.
    repeat (split; [split; [apply list_lookup_insert_eq; lia | reflexivity] |]).
    split; [apply list_lookup_insert_eq; lia | reflexivity].
  - repeat (split; [split; [apply list_lookup_insert_eq; lia | reflexivity] |]).
    split; [discriminate |]. intros _.
    unfold same_but_values. simpl. rewrite Hp. auto 20.
Qed.

(** C9.  On an object of the loading phase and for [0 <= m <= _M], each
    array access of either [SetCoeff] overload is inside its array, and
    so both calls return: [m] is below the size [_M + 1] of the two
    value arrays, and below the size [_M + 1] that the four gradient
    arrays have when [_gradp] is true, the only case in which they are
    accessed. *)
Theorem SetCoeff_in_bounds (e : CircularEngine) (m : Z) :
  loading e -> (0 <= m <= _M e)%Z ->
  (Z.of_nat (length (_wc e)) = (_M e + 1)%Z /\
   Z.of_nat (length (_ws e)) = (_M e + 1)%Z) /\
  (_gradp e = true ->
   Z.of_nat (length (_wrc e)) = (_M e + 1)%Z /\
   Z.of_nat (length (_wrs e)) = (_M e + 1)%Z /\
   Z.of_nat (length (_wtc e)) = (_M e + 1)%Z /\
   Z.of_nat (length (_wts e)) = (_M e + 1)%Z) /\
  (forall x : real,
     is_Some (vec_set (_wc e) m x) /\ is_Some (vec_set (_ws e) m x) /\
     (_gradp e = true ->
      is_Some (vec_set (_wrc e) m x) /\ is_Some (vec_set (_wrs e) m x) /\
      is_Some (vec_set (_wtc e) m x) /\ is_Some (vec_set (_wts e) m x))) /\
  (forall wc ws : real, is_Some (SetCoeff e m wc ws)) /\
  (forall wc ws wrc wrs wtc wts : real,
     is_Some (SetCoeff_grad e m wc ws wrc wrs wtc wts)).
Proof.
  intros Hl Hm. pose proof (loading_sized e Hl) as Hs.
  destruct (sized_value_index e m Hs Hm) as [Hc Hs'].
  pose proof Hs as (HM & Lc & Ls & Lg).
  split; [rewrite Lc, Ls; lia |].
  split.
  { intros Hp. rewrite Hp in Lg. simpl in Lg.
    destruct Lg as (-> & -> & -> & ->). lia. }
  split.
  { intros x. rewrite !vec_set_Some by assumption.
    split; [eauto |]. split; [eauto |]. intros Hp.
    destruct (sized_gradient_index e m Hs Hm Hp) as (H1 & H2 & H3 & H4).
    rewrite !vec_set_Some by assumption. eauto. }
  split.
  - intros wc ws. rewrite (SetCoeff_Some _ _ _ _ Hs Hm). eauto.
  - intros wc ws wrc wrs wtc wts.
    rewrite (SetCoeff_grad_Some _ _ _ _ _ _ _ _ Hs Hm). eauto.
Qed.

(** ** Single loading calls *)

Lemma vec_set_None (v : list real) (i : Z) (x : real) :
  ~ (0 <= i < Z.of_nat (length v))%Z -> vec_set v i x = None.
Proof. intros H. unfold vec_set. now rewrite decide_False. Qed.

(** Reading after a write: the written element at the written index,
    the old one elsewhere. *)
Lemma vec_get_set (v : list real) (i : Z) (x : real) (v' : list real) (j : Z) :
  vec_set v i x = Some v' ->
  vec_get v' j = if decide (i = j) then Some x else vec_get v j.
Proof.
  intros [Hi ->]%vec_set_inv. unfold vec_get. rewrite length_insert.
  destruct (decide (i = j)) as [<- | Hij].
  - rewrite decide_True by exact Hi.
    apply list_lookup_insert_eq. lia.
  - destruct (decide (0 <= j < Z.of_nat (length v))%Z) as [Hj |];
      [| reflexivity].
    apply list_lookup_insert_ne. lia.
Qed.

Lemma stored_sized (e : CircularEngine) (c : setcall) :
  sized e -> sized (stored e c).
Proof.
  unfold sized. destruct c; simpl; destruct (_gradp e) eqn:Hp; simpl;
    rewrite ?Hp, !length_insert; trivial.
Qed.

Lemma stored_scalars (e : CircularEngine) (c : setcall) :
  same_scalars e (stored e c).
Proof.
  unfold same_scalars.
  destruct c; simpl; destruct (_gradp e) eqn:Hp; simpl; auto 20.
Qed.

(** On an object with its arrays sized, a call returns exactly when its
    order is one of [0 .. _M], and then leaves [stored]. *)
Lemma apply_call_sized (e : CircularEngine) (c : setcall) :
  sized e ->
  apply_call e c =
  if decide (0 <= call_order c <= _M e)%Z then Some (stored e c) else None.
Proof.
  intros Hs. case_decide as Hm.
  - destruct c; simpl in *.
    + apply SetCoeff_Some; assumption.
    + apply SetCoeff_grad_Some; assumption.
  - assert (Hn : forall x, vec_set (_wc e) (call_order c) x = None).
    { intros x. apply vec_set_None.
      destruct Hs as (HM & -> & _). lia. }
    destruct c; simpl in *.
    + unfold SetCoeff. now rewrite Hn.
    + unfold SetCoeff_grad. now rewrite Hn.
Qed.

Lemma apply_call_inv (e : CircularEngine) (c : setcall) (e' : CircularEngine) :
  sized e -> apply_call e c = Some e' ->
  (0 <= call_order c <= _M e)%Z /\ e' = stored e c.
Proof.
  intros Hs. rewrite (apply_call_sized e c Hs).
  case_decide; intros [= <-]; auto.
Qed.

(** X5.  The constructor returns an object exactly when [M + 1] is a
    count that an [int] holds and a vector can have, that is for
    [-1 <= M < INT_MAX]; the object built with [M = -1] has six empty
    arrays, and no [SetCoeff] call on it has a result. *)
Theorem CircularEngine_new_defined (M : Z) (gradp : bool)
    (norm : SphericalEngine.normalization) (scale a r u t : real) :
  (is_Some (CircularEngine_new M gradp norm scale a r u t) <->
   (-1 <= M < INT_MAX)%Z) /\
  (M = (-1)%Z ->
   forall e : CircularEngine,
     CircularEngine_new M gradp norm scale a r u t = Some e ->
     (_wc e = [] /\ _ws e = [] /\ _wrc e = [] /\ _wrs e = [] /\
      _wtc e = [] /\ _wts e = []) /\
     forall c : setcall, apply_call e c = None).
Proof.
  split.
  - split.
    + intros [e He].
      pose proof (CircularEngine_new_domain _ _ _ _ _ _ _ _ _ He). lia.
    + intros Hd. rewrite CircularEngine_new_Some by lia. eauto.
  - intros -> e He. split.
    + rewrite CircularEngine_new_Some in He by (unfold INT_MAX; lia).
      injection He as <-. simpl. destruct gradp; auto 10.
    + intros c.
      pose proof (CircularEngine_new_sized _ _ _ _ _ _ _ _ _ He) as Hs.
      rewrite (apply_call_sized e c Hs).
      rewrite CircularEngine_new_Some in He by (unfold INT_MAX; lia).
      injection He as <-. simpl. apply decide_False. lia.
Qed.

(** X6.  A call of the three-argument [SetCoeff] with [0 <= m <= _M] on
    an object of the loading phase returns; in the object it leaves the
    two coefficients are read back at [m], every other element of the
    two value arrays is as it was, and so is every other member, the
    four gradient arrays included. *)
Theorem SetCoeff_stores (e : CircularEngine) (m : Z) (wc ws : real) :
  loading e -> (0 <= m <= _M e)%Z ->
  exists e' : CircularEngine,
    SetCoeff e m wc ws = Some e' /\
    vec_get (_wc e') m = Some wc /\ vec_get (_ws e') m = Some ws /\
    (forall j : Z, j <> m ->
       vec_get (_wc e') j = vec_get (_wc e) j /\
       vec_get (_ws e') j = vec_get (_ws e) j) /\
    same_but_values e e'.
Proof.
  intros Hl Hm. pose proof (loading_sized e Hl) as Hs.
  destruct (sized_value_index e m Hs Hm) as [Hc Hs'].
  pose proof (vec_set_Some (_wc e) m wc Hc) as Ewc.
  pose proof (vec_set_Some (_ws e) m ws Hs') as Ews.
  eexists. split; [apply (SetCoeff_Some _ _ _ _ Hs Hm) |]. simpl.
  split; [rewrite (vec_get_set _ _ _ _ m Ewc); now rewrite decide_True |].
  split; [rewrite (vec_get_set _ _ _ _ m Ews); now rewrite decide_True |].
  split.
  - intros j Hj. rewrite (vec_get_set _ _ _ _ j Ewc), (vec_get_set _ _ _ _ j Ews).
    rewrite !decide_False by congruence. split; reflexivity.
  - unfold same_but_values. simpl. auto 20.
Qed.

(** X7.  On an object of the loading phase either overload of
    [SetCoeff] has a result exactly when [0 <= m <= _M]: the code makes
    no check, and an order outside the range is an access outside the
    value arrays. *)
Theorem SetCoeff_defined_iff (e : CircularEngine) (m : Z) :
  loading e ->
  (forall wc ws : real,
     is_Some (SetCoeff e m wc ws) <-> (0 <= m <= _M e)%Z) /\
  (forall wc ws wrc wrs wtc wts : real,
     is_Some (SetCoeff_grad e m wc ws wrc wrs wtc wts) <->
     (0 <= m <= _M e)%Z).
Proof.
  intros Hl. pose proof (loading_sized e Hl) as Hs.
  assert (H : forall c, is_Some (apply_call e c) <->
                        (0 <= call_order c <= _M e)%Z).
  { intros c. rewrite (apply_call_sized e c Hs). case_decide as Hm.
    - split; [intros _; exact Hm | eauto].
    - split; [intros [? [=]] | intros; contradiction]. }
  split.
  - intros wc ws. exact (H (set_values m wc ws)).
  - intros wc ws wrc wrs wtc wts. exact (H (set_all m wc ws wrc wrs wtc wts)).
Qed.

(** X8.  On an object without gradient arrays the seven-argument
    [SetCoeff] is the three-argument one, the four derivative arguments
    being dropped; and on any object, when the seven-argument call
    returns, the three-argument call returns too and leaves the same two
    value arrays and the same members that are no array. *)
Theorem SetCoeff_grad_as_SetCoeff (e : CircularEngine) (m : Z)
    (wc ws wrc wrs wtc wts : real) :
  (_gradp e = false ->
   SetCoeff_grad e m wc ws wrc wrs wtc wts = SetCoeff e m wc ws) /\
  (forall e' : CircularEngine,
     SetCoeff_grad e m wc ws wrc wrs wtc wts = Some e' ->
     exists e0 : CircularEngine,
       SetCoeff e m wc ws = Some e0 /\
       _wc e' = _wc e0 /\ _ws e' = _ws e0 /\ same_scalars e0 e').
Proof.
  unfold SetCoeff_grad, SetCoeff. split.
  - intros Hp.
    destruct (vec_set (_wc e) m wc) as [wc' |]; [| reflexivity]. simpl.
    destruct (vec_set (_ws e) m ws) as [ws' |]; [| reflexivity]. simpl.
    now rewrite Hp.
  - intros e' H.
    destruct (vec_set (_wc e) m wc) as [wc' |]; [| discriminate].
    destruct (vec_set (_ws e) m ws) as [ws' |]; [| discriminate].
    simpl in *. eexists. split; [reflexivity |].
    destruct (_gradp e).
    + destruct (vec_set (_wrc e) m wrc) as [wrc' |]; [| discriminate].
      destruct (vec_set (_wrs e) m wrs) as [wrs' |]; [| discriminate].
      destruct (vec_set (_wtc e) m wtc) as [wtc' |]; [| discriminate].
      destruct (vec_set (_wts e) m wts) as [wts' |]; [| discriminate].
      injection H as <-. unfold same_scalars. simpl. auto 20.
    + injection H as <-. unfold same_scalars. simpl. auto 20.
Qed.

Lemma stored_overwrite (e : CircularEngine) (c : setcall) (m : Z)
    (wc ws wrc wrs wtc wts : real) :
  call_order c = m ->
  stored (stored e c) (set_all m wc ws wrc wrs wtc wts) =
  stored e (set_all m wc ws wrc wrs wtc wts).
Proof.
  intros <-. destruct c; simpl; destruct (_gradp e) eqn:Hp; simpl;
    rewrite ?Hp; unfold with_values, with_gradients; simpl;
    rewrite ?list_insert_insert_eq; reflexivity.
Qed.

(** X9.  A later call overwrites an earlier one at the same order.  On
    an object of the loading phase: a three-argument call made after a
    three-argument call at the same order leaves what it leaves when
    made alone; and a seven-argument call made after a call of either
    overload at the same order leaves what it leaves when made alone. *)
Theorem SetCoeff_overwrites (e : CircularEngine) (m : Z) :
  loading e ->
  (forall (wc ws wc' ws' : real) (e1 : CircularEngine),
     SetCoeff e m wc ws = Some e1 ->
     SetCoeff e1 m wc' ws' = SetCoeff e m wc' ws') /\
  (forall (c : setcall) (e1 : CircularEngine)
          (wc ws wrc wrs wtc wts : real),
     call_order c = m -> apply_call e c = Some e1 ->
     SetCoeff_grad e1 m wc ws wrc wrs wtc wts =
     SetCoeff_grad e m wc ws wrc wrs wtc wts).
Proof.
  intros Hl. pose proof (loading_sized e Hl) as Hs. split.
  - intros wc ws wc' ws' e1 H1.
    destruct (apply_call_inv e (set_values m wc ws) e1 Hs H1) as [Hm ->].
    simpl in Hm.
    rewrite (SetCoeff_Some (stored e (set_values m wc ws)) m wc' ws'
               (stored_sized e (set_values m wc ws) Hs) Hm).
    rewrite (SetCoeff_Some _ _ _ _ Hs Hm). simpl.
    unfold with_values. simpl. now rewrite !list_insert_insert_eq.
  - intros c e1 wc ws wrc wrs wtc wts Hc H1.
    destruct (apply_call_inv e c e1 Hs H1) as [Hm ->]. rewrite Hc in Hm.
    change (apply_call (stored e c) (set_all m wc ws wrc wrs wtc wts) =
            apply_call e (set_all m wc ws wrc wrs wtc wts)).
    rewrite (apply_call_sized _ _ (stored_sized e c Hs)).
    rewrite (apply_call_sized _ _ Hs).
    destruct (stored_scalars e c) as (HM & _). rewrite HM.
    now rewrite (stored_overwrite e c m _ _ _ _ _ _ Hc).
Qed.

(** ** Sequences of loading calls: what they keep *)

Lemma load_sized (e : CircularEngine) (cs : list setcall) (e' : CircularEngine) :
  sized e -> load e cs = Some e' -> sized e' /\ same_scalars e e'.
Proof.
  revert e. induction cs as [| c cs IH]; intros e Hs H; simpl in H.
  - injection H as <-. split; [exact Hs |]. unfold same_scalars. auto 20.
  - destruct (apply_call e c) as [e1 |] eqn:H1; [| discriminate].
    simpl in H. destruct (apply_call_inv e c e1 Hs H1) as [_ ->].
    destruct (IH _ (stored_sized e c Hs) H) as [Hs' Hsc].
    split; [exact Hs' |].
    pose proof (stored_scalars e c) as Hst.
    unfold same_scalars in *.
    destruct Hst as (? & ? & ? & ? & ? & ? & ? & ? & ? & ? & ?).
    destruct Hsc as (? & ? & ? & ? & ? & ? & ? & ? & ? & ? & ?).
    repeat split; congruence.
Qed.

Lemma loading_cached (e : CircularEngine) : loading e -> cached e.
Proof.
  induction 1 as [M gradp norm scale a r u t e H
                 | e m wc ws e' Hl IH H
                 | e m wc ws wrc wrs wtc wts e' Hl IH H].
  - pose proof (CircularEngine_new_domain _ _ _ _ _ _ _ _ _ H) as Hd.
    rewrite (CircularEngine_new_Some M gradp norm scale a r u t Hd) in H.
    injection H as <-. unfold cached. simpl. auto.
  - destruct (apply_call_inv e (set_values m wc ws) e' (loading_sized e Hl) H)
      as [_ ->]. exact IH.
  - destruct (apply_call_inv e (set_all m wc ws wrc wrs wtc wts) e'
                (loading_sized e Hl) H) as [_ ->].
    unfold cached in *. simpl. destruct (_gradp e); exact IH.
Qed.

Lemma load_loading (e : CircularEngine) (cs : list setcall) (e' : CircularEngine) :
  loading e -> load e cs = Some e' -> loading e'.
Proof.
  revert e. induction cs as [| c cs IH]; intros e Hl H; simpl in H.
  - now injection H as <-.
  - destruct (apply_call e c) as [e1 |] eqn:H1; [| discriminate].
    simpl in H. apply (IH e1); [| exact H].
    destruct c; simpl in H1.
    + exact (loading_SetCoeff _ _ _ _ _ Hl H1).
    + exact (loading_SetCoeff_grad _ _ _ _ _ _ _ _ _ Hl H1).
Qed.

Lemma sized_lengths (e : CircularEngine) (a : array) :
  sized e ->
  length (array_of a e) =
  if value_array a || _gradp e then Z.to_nat (_M e + 1) else 0%nat.
Proof.
  intros (_ & Lc & Ls & Lg). destruct (_gradp e); simpl in Lg;
    destruct Lg as (L1 & L2 & L3 & L4); destruct a; simpl; assumption.
Qed.

(** X10.  Throughout the loading phase the object keeps what the
    constructor established: the three cached members are the products
    [_a / _r], [_u * _q] and the square of [_uq]; [_M] is in
    [-1 .. INT_MAX - 1]; and each array has [_M + 1] elements, or none
    when it is a gradient array of an object built without gradient. *)
Theorem loading_invariant (e : CircularEngine) :
  loading e ->
  cached e /\ (-1 <= _M e < INT_MAX)%Z /\
  forall a : array,
    length (array_of a e) =
    if value_array a || _gradp e then Z.to_nat (_M e + 1) else 0%nat.
Proof.
  intros Hl. pose proof (loading_sized e Hl) as Hs.
  split; [exact (loading_cached e Hl) |].
  split; [destruct Hs as (HM & _); lia |].
  intros a. exact (sized_lengths e a Hs).
Qed.

(** X11.  A sequence of [SetCoeff] calls that returns changes the
    contents of arrays only: the members that are no array are as they
    were, each array has the size it had, and the object is still one of
    the loading phase. *)
Theorem load_keeps_shape (e : CircularEngine) (cs : list setcall)
    (e' : CircularEngine) :
  loading e -> load e cs = Some e' ->
  same_scalars e e' /\ loading e' /\
  forall a : array, length (array_of a e') = length (array_of a e).
Proof.
  intros Hl H. destruct (load_sized e cs e' (loading_sized e Hl) H) as [Hs' Hsc].
  split; [exact Hsc |]. split; [exact (load_loading e cs e' Hl H) |].
  intros a. rewrite (sized_lengths e' a Hs'), (sized_lengths e a (loading_sized e Hl)).
  destruct Hsc as (-> & -> & _). reflexivity.
Qed.

(** X12.  A sequence of [SetCoeff] calls on an object of the loading
    phase returns exactly when the order of each call is one of
    [0 .. _M]. *)
Theorem load_defined_iff (e : CircularEngine) (cs : list setcall) :
  loading e ->
  (is_Some (load e cs) <->
   Forall (fun c => (0 <= call_order c <= _M e)%Z) cs).
Proof.
  intros Hl. pose proof (loading_sized e Hl) as Hs. clear Hl.
  revert e Hs. induction cs as [| c cs IH]; intros e Hs; simpl.
  - split; [constructor | eauto].
  - rewrite Forall_cons, (apply_call_sized e c Hs).
    destruct (stored_scalars e c) as (HM & _).
    case_decide as Hm; simpl.
    + rewrite (IH _ (stored_sized e c Hs)), HM. tauto.
    + split; [intros [? [=]] | tauto].
Qed.

(** ** Sequences of loading calls: what is read back *)

Lemma vec_get_insert (v : list real) (m j : Z) (x d : real) :
  (0 <= m)%Z -> vec_get v j = Some d ->
  vec_get (<[Z.to_nat m := x]> v) j = Some (if decide (m = j) then x else d).
Proof.
  unfold vec_get. rewrite length_insert. intros Hm H.
  destruct (decide (0 <= j < Z.of_nat (length v))%Z) as [Hj |];
    [| discriminate].
  destruct (decide (m = j)) as [-> | Hne].
  - apply list_lookup_insert_eq. lia.
  - rewrite list_lookup_insert_ne by lia. exact H.
Qed.

(** One call: the element at [j] of the array [a] afterwards. *)
Lemma apply_call_get (e : CircularEngine) (c : setcall) (e1 : CircularEngine)
    (a : array) (j : Z) (d : real) :
  sized e -> apply_call e c = Some e1 ->
  vec_get (array_of a e) j = Some d ->
  vec_get (array_of a e1) j =
  Some (if decide (call_order c = j)
        then default d (written (_gradp e) a c) else d).
Proof.
  intros Hs H Hg. destruct (apply_call_inv e c e1 Hs H) as [[Hm _] ->].
  destruct c as [m wc ws | m wc ws wrc wrs wtc wts]; simpl in Hm |- *;
    destruct (_gradp e) eqn:Hp; destruct a; simpl in Hg |- *;
    first [ apply (vec_get_insert _ _ _ _ _ Hm Hg)
          | case_decide; exact Hg ].
Qed.

Lemma load_get (e : CircularEngine) (cs : list setcall) (e' : CircularEngine)
    (a : array) (j : Z) (d : real) :
  sized e -> load e cs = Some e' ->
  vec_get (array_of a e) j = Some d ->
  vec_get (array_of a e') j = Some (last_written (_gradp e) a cs j d).
Proof.
  revert e d. induction cs as [| c cs IH]; intros e d Hs H Hg; simpl in H |- *.
  - now injection H as <-.
  - destruct (apply_call e c) as [e1 |] eqn:H1; [| discriminate].
    simpl in H. pose proof (apply_call_get e c e1 a j d Hs H1 Hg) as Hg1.
    destruct (apply_call_inv e c e1 Hs H1) as [_ ->].
    destruct (stored_scalars e c) as (_ & Hp & _). rewrite <- Hp.
    apply (IH _ _ (stored_sized e c Hs) H). rewrite Hp. exact Hg1.
Qed.

(** X13.  After the constructor and a sequence of [SetCoeff] calls that
    returns, the element at an order [j] of [0 .. M] of an array is the
    argument that the last call at the order [j] sent to that array, and
    0 when no call sent one: what is read is what was last written, and
    what was never written is the zero of the constructor.  (The arrays
    are the two value arrays, and the four gradient arrays when the
    object was built with gradient.) *)
Theorem load_reads_last_written (M : Z) (gradp : bool)
    (norm : SphericalEngine.normalization) (scale a r u t : real)
    (e0 : CircularEngine) (cs : list setcall) (e : CircularEngine)
    (arr : array) (j : Z) :
  CircularEngine_new M gradp norm scale a r u t = Some e0 ->
  load e0 cs = Some e ->
  (0 <= j <= M)%Z -> value_array arr || gradp = true ->
  vec_get (array_of arr e) j = Some (last_written gradp arr cs j 0).
Proof.
  intros Hnew Hload Hj Harr.
  pose proof (CircularEngine_new_sized _ _ _ _ _ _ _ _ _ Hnew) as Hs.
  pose proof (CircularEngine_new_domain _ _ _ _ _ _ _ _ _ Hnew) as Hd.
  assert (Hg0 : vec_get (array_of arr e0) j = Some 0 /\ _gradp e0 = gradp).
  { rewrite (CircularEngine_new_Some M gradp norm scale a r u t Hd) in Hnew.
    injection Hnew as <-. split; [| reflexivity].
    unfold vec_get.
    destruct arr; simpl in Harr |- *; try rewrite Harr;
      rewrite length_replicate, decide_True by lia;
      apply lookup_replicate_2; lia. }
  destruct Hg0 as [Hg0 <-].
  exact (load_get e0 cs e arr j 0 Hs Hload Hg0).
Qed.

(** ** Sequences of loading calls: their order *)

Lemma stored_commute (e : CircularEngine) (c1 c2 : setcall) :
  (0 <= call_order c1)%Z -> (0 <= call_order c2)%Z ->
  call_order c1 <> call_order c2 ->
  stored (stored e c1) c2 = stored (stored e c2) c1.
Proof.
  intros H1 H2 Hne.
  assert (N : Z.to_nat (call_order c2) <> Z.to_nat (call_order c1)) by lia.
  destruct c1, c2; simpl in N |- *; destruct (_gradp e) eqn:Hp; simpl;
    rewrite ?Hp; unfold with_values, with_gradients; simpl;
    rewrite ?(list_insert_insert_ne _ _ _ _ _ N); reflexivity.
Qed.

(** Two calls at different orders, in either order. *)
Lemma apply_call_commute (e : CircularEngine) (c1 c2 : setcall) :
  sized e -> call_order c1 <> call_order c2 ->
  (e1 ← apply_call e c1; apply_call e1 c2) =
  (e2 ← apply_call e c2; apply_call e2 c1).
Proof.
  intros Hs Hne.
  rewrite (apply_call_sized e c1 Hs), (apply_call_sized e c2 Hs).
  destruct (stored_scalars e c1) as (HM1 & _).
  destruct (stored_scalars e c2) as (HM2 & _).
  destruct (decide (0 <= call_order c1 <= _M e)%Z) as [R1 | R1];
    destruct (decide (0 <= call_order c2 <= _M e)%Z) as [R2 | R2]; simpl;
    rewrite ?(apply_call_sized _ _ (stored_sized e c1 Hs)),
      ?(apply_call_sized _ _ (stored_sized e c2 Hs)), ?HM1, ?HM2;
    rewrite ?(decide_True _ _ R1), ?(decide_True _ _ R2),
      ?(decide_False _ _ R1), ?(decide_False _ _ R2); try reflexivity.
  now rewrite (stored_commute e c1 c2) by lia.
Qed.

Lemma load_permutation_sized (cs cs' : list setcall) :
  cs ≡ₚ cs' ->
  forall e : CircularEngine,
    sized e -> NoDup (call_order <$> cs) -> load e cs = load e cs'.
Proof.
  induction 1 as [| c l l' Hp IH | c1 c2 l | l l' l'' Hp1 IH1 Hp2 IH2];
    intros e Hs Hnd.
  - reflexivity.
  - simpl. destruct (apply_call e c) as [e1 |] eqn:H1; [| reflexivity].
    simpl. destruct (apply_call_inv e c e1 Hs H1) as [_ ->].
    apply IH; [apply stored_sized; exact Hs |].
    rewrite fmap_cons in Hnd. now apply NoDup_cons_1_2 in Hnd.
  - rewrite !fmap_cons in Hnd. apply NoDup_cons in Hnd as [Hnot _].
    assert (Hne : call_order c2 <> call_order c1).
    { intros E. apply Hnot. rewrite E. apply list_elem_of_here. }
    pose proof (apply_call_commute e c2 c1 Hs Hne) as Hc. simpl.
    destruct (apply_call e c2) as [e2 |]; destruct (apply_call e c1) as [e1 |];
      simpl in Hc |- *.
    + destruct (apply_call e2 c1); destruct (apply_call e1 c2);
        simpl; congruence.
    + destruct (apply_call e2 c1); simpl; congruence.
    + destruct (apply_call e1 c2); simpl; congruence.
    + reflexivity.
  - rewrite (IH1 e Hs Hnd). apply IH2; [exact Hs |].
    now rewrite <- Hp1.
Qed.

(** X14.  The calls of a loading sequence that address different orders
    can be made in any order: two sequences that are permutations of
    each other, no order addressed twice, either both fail or leave the
    same object. *)
Theorem load_permutation (e : CircularEngine) (cs cs' : list setcall) :
  loading e -> cs ≡ₚ cs' -> NoDup (call_order <$> cs) ->
  load e cs = load e cs'.
Proof.
  intros Hl Hp Hnd.
  exact (load_permutation_sized cs cs' Hp e (loading_sized e Hl) Hnd).
Qed.

(** ** The statements at concrete inputs *)

Lemma cossin_wrap_range_witness :
  cossin_wrap 200 = 200 - 360 /\ cossin_wrap (-200) = -200 + 360 /\
  cossin_wrap 45 = 45 /\ reduced (cossin_wrap 200).
Proof.
  destruct (cossin_wrap_range 200) as (Hge & _ & _ & Hr).
  destruct (cossin_wrap_range (-200)) as (_ & Hlt & _ & _).
  destruct (cossin_wrap_range 45) as (_ & _ & Hid & _).
  split; [apply Hge; lra |]. split; [apply Hlt; lra |].
  split; [apply Hid; unfold reduced; lra |]. apply Hr. lra.
Defined.

Lemma cossin_boundary_exact_witness :
  fst (cossin degree_approx cos_approx sin_approx 450) = 0 /\
  snd (cossin degree_approx cos_approx sin_approx 180) = 0 /\
  cossin degree_approx cos_approx sin_approx 60 =
    (cos_approx (60 * degree_approx), sin_approx (60 * degree_approx)).
Proof.
  destruct (cossin_boundary_exact degree_approx cos_approx sin_approx 450)
    as (Hc & _).
  destruct (cossin_boundary_exact degree_approx cos_approx sin_approx 180)
    as (_ & Hs & _).
  destruct (cossin_boundary_exact degree_approx cos_approx sin_approx 60)
    as (_ & _ & _ & _ & Hcs).
  split; [apply Hc; reflexivity |]. split; [apply Hs; reflexivity |].
  apply Hcs; discriminate.
Defined.

Lemma CircularEngine_new_zero_filled_witness :
  CircularEngine_new 2 true SphericalEngine.schmidt 1 2 4 (3 # 5) (4 # 5)
    = Some sample_engine_grad /\
  _wc sample_engine_grad = replicate 3 0 /\
  _wrc sample_engine_grad = replicate 3 0 /\
  _uq2 sample_engine_grad = _uq sample_engine_grad ^ 2.
Proof.
  assert (H : CircularEngine_new 2 true SphericalEngine.schmidt 1 2 4
                (3 # 5) (4 # 5) = Some sample_engine_grad) by reflexivity.
  destruct (CircularEngine_new_zero_filled 2 true SphericalEngine.schmidt
              1 2 4 (3 # 5) (4 # 5)) as [_ Hnew].
  destruct (Hnew sample_engine_grad H)
    as (_ & [_ Hwc] & _ & [_ Hwrc] & _ & _ & _ & _ & _ & Huq2).
  split; [exact H |]. split; [exact Hwc |]. split; [exact Hwrc | exact Huq2].
Defined.

Lemma SetCoeff_grad_stores_witness :
  loading sample_engine /\ (0 <= 1 <= _M sample_engine)%Z /\
  exists e' : CircularEngine,
    SetCoeff_grad sample_engine 1 5 6 7 8 9 10 = Some e' /\
    _wc e' = [0; 5; 0] /\ _ws e' = [0; 6; 0] /\
    same_but_values sample_engine e'.
Proof.
  assert (Hl : loading sample_engine).
  { apply (loading_new 2 false SphericalEngine.full 1 2 4 (3 # 5) (4 # 5)).
    reflexivity. }
  assert (Hm : (0 <= 1 <= _M sample_engine)%Z) by (simpl; lia).
  split; [exact Hl |]. split; [exact Hm |].
  destruct (SetCoeff_grad_stores sample_engine 1 5 6 7 8 9 10 Hl Hm)
    as (e' & He & [_ Hwc] & [_ Hws] & _ & Hsame).
  exists e'. split; [exact He |]. split; [exact Hwc |].
  split; [exact Hws |]. apply Hsame. reflexivity.
Defined.

Lemma SetCoeff_in_bounds_witness :
  loading sample_engine_grad /\ (0 <= 2 <= _M sample_engine_grad)%Z /\
  is_Some (SetCoeff sample_engine_grad 2 5 6) /\
  is_Some (SetCoeff_grad sample_engine_grad 2 5 6 7 8 9 10) /\
  loading sample_engine /\ (0 <= 0 <= _M sample_engine)%Z /\
  is_Some (SetCoeff_grad sample_engine 0 5 6 7 8 9 10).
Proof.
  assert (Hl : loading sample_engine_grad).
  { apply (loading_new 2 true SphericalEngine.schmidt 1 2 4 (3 # 5) (4 # 5)).
    reflexivity. }
  assert (Hm : (0 <= 2 <= _M sample_engine_grad)%Z) by (simpl; lia).
  assert (Hl' : loading sample_engine).
  { apply (loading_new 2 false SphericalEngine.full 1 2 4 (3 # 5) (4 # 5)).
    reflexivity. }
  assert (Hm' : (0 <= 0 <= _M sample_engine)%Z) by (simpl; lia).
  split; [exact Hl |]. split; [exact Hm |].
  destruct (SetCoeff_in_bounds sample_engine_grad 2 Hl Hm)
    as (_ & _ & _ & H3 & H7).
  destruct (SetCoeff_in_bounds sample_engine 0 Hl' Hm')
    as (_ & _ & _ & _ & H7').
  split; [apply H3 |]. split; [apply H7 |].
  split; [exact Hl' |]. split; [exact Hm' | apply H7'].
Defined.

Lemma cossin_wrap_fixes_reduced_witness :
  reduced 45 /\ cossin_wrap 45 = 45 /\
  cossin degree_approx cos_approx sin_approx (cossin_wrap 45) =
  cossin degree_approx cos_approx sin_approx 45.
Proof.
  assert (H : reduced 45) by (unfold reduced; lra).
  split; [exact H |].
  destruct (cossin_wrap_fixes_reduced degree_approx cos_approx sin_approx 45 H)
    as (Hid & _ & Hcs).
  split; [exact Hid | exact Hcs].
Defined.

Lemma cossin_turn_apart_witness :
  cossin degree_approx cos_approx sin_approx 200 =
    cossin degree_approx cos_approx sin_approx (200 - 360) /\
  cossin degree_approx cos_approx sin_approx (-200) =
    cossin degree_approx cos_approx sin_approx (-200 + 360).
Proof.
  destruct (cossin_turn_apart degree_approx cos_approx sin_approx 200)
    as [Hdown _].
  destruct (cossin_turn_apart degree_approx cos_approx sin_approx (-200))
    as [_ Hup].
  split; [apply Hdown; lra | apply Hup; lra].
Defined.

Lemma op_lon_turn_apart_witness :
  op_lon degree_approx cos_approx sin_approx Value_approx sample_engine 200 =
  op_lon degree_approx cos_approx sin_approx Value_approx sample_engine
    (200 - 360).
Proof.
  destruct (op_lon_turn_apart degree_approx cos_approx sin_approx
              Value_approx sample_engine 200) as [Hdown _].
  apply Hdown. lra.
Defined.

Lemma CircularEngine_new_defined_witness :
  exists e : CircularEngine,
    CircularEngine_new (-1) true SphericalEngine.full 1 2 4 (3 # 5) (4 # 5)
      = Some e /\
    _wc e = [] /\ apply_call e (set_values 0 1 1) = None.
Proof.
  destruct (CircularEngine_new_defined (-1) true SphericalEngine.full
              1 2 4 (3 # 5) (4 # 5)) as [[_ Hdef] Hempty].
  destruct Hdef as [e He]; [unfold INT_MAX; lia |].
  destruct (Hempty eq_refl e He) as [(Hwc & _) Hnone].
  exists e. split; [exact He |]. split; [exact Hwc | apply Hnone].
Defined.

Lemma SetCoeff_stores_witness :
  loading sample_engine_grad /\ (0 <= 1 <= _M sample_engine_grad)%Z /\
  exists e' : CircularEngine,
    SetCoeff sample_engine_grad 1 5 6 = Some e' /\
    vec_get (_wc e') 1 = Some 5 /\ vec_get (_ws e') 1 = Some 6 /\
    vec_get (_wc e') 2 = vec_get (_wc sample_engine_grad) 2.
Proof.
  assert (Hl : loading sample_engine_grad).
  { apply (loading_new 2 true SphericalEngine.schmidt 1 2 4 (3 # 5) (4 # 5)).
    reflexivity. }
  assert (Hm : (0 <= 1 <= _M sample_engine_grad)%Z) by (simpl; lia).
  split; [exact Hl |]. split; [exact Hm |].
  destruct (SetCoeff_stores sample_engine_grad 1 5 6 Hl Hm)
    as (e' & He & Hwc & Hws & Hother & _).
  exists e'. split; [exact He |]. split; [exact Hwc |].
  split; [exact Hws |]. apply (Hother 2%Z). lia.
Defined.

Lemma SetCoeff_defined_iff_witness :
  loading sample_engine /\
  is_Some (SetCoeff sample_engine 2 1 1) /\
  ~ is_Some (SetCoeff sample_engine 3 1 1) /\
  ~ is_Some (SetCoeff_grad sample_engine (-1) 1 1 1 1 1 1).
Proof.
  assert (Hl : loading sample_engine).
  { apply (loading_new 2 false SphericalEngine.full 1 2 4 (3 # 5) (4 # 5)).
    reflexivity. }
  split; [exact Hl |].
  destruct (SetCoeff_defined_iff sample_engine 2 Hl) as [H2 _].
  destruct (SetCoeff_defined_iff sample_engine 3 Hl) as [H3 _].
  destruct (SetCoeff_defined_iff sample_engine (-1) Hl) as [_ Hneg].
  split; [apply H2; simpl; lia |].
  split.
  - intros H. apply H3 in H. simpl in H. lia.
  - intros H. apply Hneg in H. simpl in H. lia.
Defined.

Lemma SetCoeff_grad_as_SetCoeff_witness :
  SetCoeff_grad sample_engine 1 5 6 7 8 9 10 = SetCoeff sample_engine 1 5 6.
Proof.
  destruct (SetCoeff_grad_as_SetCoeff sample_engine 1 5 6 7 8 9 10)
    as [Hsame _].
  apply Hsame. reflexivity.
Defined.

Lemma SetCoeff_overwrites_witness :
  loading sample_engine_grad /\
  exists e1 : CircularEngine,
    SetCoeff sample_engine_grad 1 5 6 = Some e1 /\
    SetCoeff e1 1 7 8 = SetCoeff sample_engine_grad 1 7 8 /\
    SetCoeff_grad e1 1 1 2 3 4 5 6 =
    SetCoeff_grad sample_engine_grad 1 1 2 3 4 5 6.
Proof.
  assert (Hl : loading sample_engine_grad).
  { apply (loading_new 2 true SphericalEngine.schmidt 1 2 4 (3 # 5) (4 # 5)).
    reflexivity. }
  split; [exact Hl |].
  destruct (SetCoeff_overwrites sample_engine_grad 1 Hl) as [H3 H7].
  eexists. split; [reflexivity |]. split.
  - apply (H3 5 6). reflexivity.
  - apply (H7 (set_values 1 5 6)); reflexivity.
Defined.

Lemma loading_invariant_witness :
  loading sample_engine_grad /\ cached sample_engine_grad /\
  length (array_of in_wtc sample_engine_grad) = 3%nat.
Proof.
  assert (Hl : loading sample_engine_grad).
  { apply (loading_new 2 true SphericalEngine.schmidt 1 2 4 (3 # 5) (4 # 5)).
    reflexivity. }
  split; [exact Hl |].
  destruct (loading_invariant sample_engine_grad Hl) as (Hc & _ & Hlen).
  split; [exact Hc | exact (Hlen in_wtc)].
Defined.

Lemma load_keeps_shape_witness :
  loading sample_engine /\
  exists e' : CircularEngine,
    load sample_engine [set_values 0 1 2; set_all 2 3 4 5 6 7 8] = Some e' /\
    same_scalars sample_engine e' /\ loading e'.
Proof.
  assert (Hl : loading sample_engine).
  { apply (loading_new 2 false SphericalEngine.full 1 2 4 (3 # 5) (4 # 5)).
    reflexivity. }
  split; [exact Hl |].
  eexists. split; [reflexivity |].
  destruct (load_keeps_shape sample_engine
              [set_values 0 1 2; set_all 2 3 4 5 6 7 8] _ Hl eq_refl)
    as (Hsc & Hl' & _).
  split; [exact Hsc | exact Hl'].
Defined.

Lemma load_defined_iff_witness :
  loading sample_engine /\
  is_Some (load sample_engine [set_values 0 1 2; set_values 2 3 4]) /\
  ~ is_Some (load sample_engine [set_values 0 1 2; set_values 3 3 4]).
Proof.
  assert (Hl : loading sample_engine).
  { apply (loading_new 2 false SphericalEngine.full 1 2 4 (3 # 5) (4 # 5)).
    reflexivity. }
  split; [exact Hl |]. split.
  - apply (load_defined_iff sample_engine _ Hl).
    repeat constructor; simpl; lia.
  - intros H. apply (load_defined_iff sample_engine _ Hl) in H.
    apply Forall_cons in H as [_ H]. apply Forall_cons in H as [H _].
    simpl in H. lia.
Defined.

Lemma load_reads_last_written_witness :
  let cs := [set_values 1 5 6; set_all 1 7 8 9 10 11 12; set_values 1 1 2] in
  CircularEngine_new 2 true SphericalEngine.schmidt 1 2 4 (3 # 5) (4 # 5)
    = Some sample_engine_grad /\
  exists e : CircularEngine,
    load sample_engine_grad cs = Some e /\
    vec_get (array_of in_wc e) 1 = Some 1 /\
    vec_get (array_of in_wrc e) 1 = Some 9 /\
    vec_get (array_of in_ws e) 2 = Some 0.
Proof.
  intros cs.
  assert (Hnew : CircularEngine_new 2 true SphericalEngine.schmidt 1 2 4
                   (3 # 5) (4 # 5) = Some sample_engine_grad) by reflexivity.
  split; [exact Hnew |].
  eexists. split; [reflexivity |].
  split; [| split].
  - apply (load_reads_last_written _ _ _ _ _ _ _ _ _ cs _ in_wc 1
             Hnew eq_refl); [lia | reflexivity].
  - apply (load_reads_last_written _ _ _ _ _ _ _ _ _ cs _ in_wrc 1
             Hnew eq_refl); [lia | reflexivity].
  - apply (load_reads_last_written _ _ _ _ _ _ _ _ _ cs _ in_ws 2
             Hnew eq_refl); [lia | reflexivity].
Defined.

Lemma load_permutation_witness :
  let cs := [set_values 0 1 2; set_all 2 3 4 5 6 7 8] in
  let cs' := [set_all 2 3 4 5 6 7 8; set_values 0 1 2] in
  loading sample_engine_grad /\ cs ≡ₚ cs' /\ NoDup (call_order <$> cs) /\
  load sample_engine_grad cs = load sample_engine_grad cs'.
Proof.
  intros cs cs'.
  assert (Hl : loading sample_engine_grad).
  { apply (loading_new 2 true SphericalEngine.schmidt 1 2 4 (3 # 5) (4 # 5)).
    reflexivity. }
  assert (Hp : cs ≡ₚ cs') by apply perm_swap.
  assert (Hnd : NoDup (call_order <$> cs)).
  { apply (bool_decide_unpack _). vm_compute. exact I. }
  split; [exact Hl |]. split; [exact Hp |]. split; [exact Hnd |].
  exact (load_permutation sample_engine_grad cs cs' Hl Hp Hnd).
Defined.

Lemma cossin_wrap_twice_witness :
  cossin_wrap (cossin_wrap 300) = cossin_wrap 300 /\
  cossin_wrap (cossin_wrap 600) = 600 - 360 - 360 /\
  reduced (cossin_wrap (cossin_wrap (-600))).
Proof.
  destruct (cossin_wrap_twice 300) as (Hin & _ & _).
  destruct (cossin_wrap_twice 600) as (_ & Hup & _).
  destruct (cossin_wrap_twice (-600)) as (_ & _ & Hdown).
  split; [apply Hin; lra |]. split.
  - apply Hup. lra.
  - apply Hdown. lra.
Defined.
